(** * The normal-equation OLS fit of [benchmark_linreg.ipynb]

    The notebook computes an ordinary least squares fit in two statements

      coefs = np.linalg.solve(X_with_const.T @ X_with_const, X_with_const.T @ y)
      r2 = pearsonr(X_with_const @ coefs, y)[0] ** 2

    and compares it with statsmodels and scikit-learn.  This file embeds those
    two statements, together with the numpy / scipy routines they call, and
    proves the properties the specification states about them.

    Modelling conventions.
    - A float64 is a real number; rounding, underflow, overflow and
      infinities are not represented.  The theorems therefore say what the
      two statements compute on the runs where they return, up to rounding;
      which matrices LAPACK finds singular in float64 (an exactly singular
      matrix whose elimination rounds to a non-zero pivot is solved, a
      regular one whose entries underflow is not) is outside this file.
    - The one way the two statements can produce a [nan] from finite data is
      a division [0 / 0] in [pearsonr]; a possibly-[nan] float is an
      [option R] with [None] for [nan].
    - A 1-D array is a [list R].  A 2-D array is the list of its rows together
      with its column count, so that the shapes (0, p) and (n, 0) exist.
    - An exception is a value of [exception]; a call that may raise returns a
      [result].  numpy's [ValueError] for operands whose shapes do not agree is
      the specification's DimensionMismatch, and [LinAlgError "Singular
      matrix"] is its SingularMatrix. *)

From stdpp Require Import gmap strings.
From Stdlib Require Import Reals Lra Lia List Permutation.
Import ListNotations.
Open Scope R_scope.

(** ** Exceptions and results *)

Inductive linalg_reason := NotSquare | Singular.

Inductive exception :=
  | ValueError
  | LinAlgError (why : linalg_reason).

(** The specification's names for the two failures. *)
Definition DimensionMismatch : exception := ValueError.

Inductive result (A : Type) :=
  | Ok (a : A)
  | Raise (e : exception).
Arguments Ok {A} a.
Arguments Raise {A} e.

Definition rbind {A B} (c : result A) (k : A -> result B) : result B :=
  match c with
  | Ok a => k a
  | Raise e => Raise e
  end.

Notation "'let!' x ':=' c 'in' k" := (rbind c (fun x => k))
  (at level 10, x name, c at level 100, k at level 200).

(** ** Arrays *)

Definition vector := list R.

Record ndarray2 := Array2 { ncols : nat; rows : list vector }.

Definition nrows (M : ndarray2) : nat := length (rows M).

(** Every row of a 2-D array has [ncols] entries. *)
Definition well_shaped (M : ndarray2) : Prop :=
  Forall (fun r => length r = ncols M) (rows M).

Fixpoint sum (v : vector) : R :=
  match v with
  | [] => 0
  | a :: v' => a + sum v'
  end.

Fixpoint dot (u v : vector) : R :=
  match u, v with
  | a :: u', b :: v' => a * b + dot u' v'
  | _, _ => 0
  end.

Definition col (j : nat) (M : ndarray2) : vector :=
  map (fun r => nth j r 0) (rows M).

(** [M.T] *)
Definition transpose (M : ndarray2) : ndarray2 :=
  {| ncols := nrows M;
     rows := map (fun j => col j M) (seq 0 (ncols M)) |}.

(** [A @ B] for two 2-D arrays. *)
Definition matmul (A B : ndarray2) : result ndarray2 :=
  if negb (ncols A =? nrows B)%nat then Raise ValueError
  else Ok {| ncols := ncols B;
             rows := map (fun ra => map (fun j => dot ra (col j B))
                                        (seq 0 (ncols B)))
                         (rows A) |}.

(** The entries of [A @ v]: one dot product per row. *)
Definition mv (A : ndarray2) (v : vector) : vector :=
  map (fun ra => dot ra v) (rows A).

(** [A @ v] for a 2-D array and a 1-D array. *)
Definition matvec (A : ndarray2) (v : vector) : result vector :=
  if negb (ncols A =? length v)%nat then Raise ValueError
  else Ok (mv A v).

(** ** [np.linalg.solve]

    numpy checks that [a] is square and that [b] has as many entries as [a]
    has rows, then calls LAPACK's [gesv]: an LU factorisation with partial
    pivoting and row interchanges followed by the two triangular solves, and
    raises [LinAlgError] when the factorisation meets a pivot that is exactly
    zero.  [gauss] is that elimination on the augmented system, one column
    per recursive call, with the back substitution on the way out. *)

Definition aug_row := (vector * R)%type.

Definition lead (r : aug_row) : R := hd 0 (fst r).

(** Index of the first entry of largest absolute value (BLAS [idamax]). *)
Fixpoint idamax (xs : list R) : nat :=
  match xs with
  | [] => O
  | x :: xs' =>
      let k := idamax xs' in
      if Rlt_dec (Rabs x) (Rabs (nth k xs' 0)) then S k else O
  end.

Definition replace_nth {A} (k : nat) (a : A) (l : list A) : list A :=
  firstn k l ++ a :: skipn (S k) l.

(** The rows below the pivot once row [k] has been interchanged with row 0. *)
Definition below_pivot (k : nat) (sys : list aug_row) : list aug_row :=
  match sys with
  | [] => []
  | r0 :: rest =>
      match k with
      | O => rest
      | S k' => replace_nth k' r0 rest
      end
  end.

Fixpoint axpy (l : R) (a p : vector) : vector :=
  match a, p with
  | x :: a', q :: p' => (x - l * q) :: axpy l a' p'
  | _, _ => []
  end.

(** Subtract the multiple of the pivot row that clears the leading entry of
    [r], and drop that entry. *)
Definition eliminate (piv r : aug_row) : aug_row :=
  let l := lead r / lead piv in
  (axpy l (tl (fst r)) (tl (fst piv)), snd r - l * snd piv).

Fixpoint gauss (n : nat) (sys : list aug_row) : result vector :=
  match n with
  | O => Ok []
  | S n' =>
      let k := idamax (map lead sys) in
      let piv := nth k sys ([], 0) in
      if Req_dec_T (lead piv) 0 then Raise (LinAlgError Singular)
      else
        let! xs := gauss n' (map (eliminate piv) (below_pivot k sys)) in
        Ok ((snd piv - dot (tl (fst piv)) xs) / lead piv :: xs)
  end.

Definition linalg_solve (a : ndarray2) (b : vector) : result vector :=
  if negb (nrows a =? ncols a)%nat then Raise (LinAlgError NotSquare)
  else if negb (length b =? nrows a)%nat then Raise ValueError
  else gauss (ncols a) (combine (rows a) b).

(** ** [scipy.stats.pearsonr] (scipy 1.2.1)

    Only the correlation coefficient is modelled; the p-value, the second
    component of the pair, is dropped by the [[0]] of the notebook.  The
    routine does not compare the lengths of its arguments: the product
    [xm * ym] follows numpy's broadcasting, which stretches a one-element
    array to the length of the other operand and raises [ValueError] for any
    other pair of different lengths.  The denominator is zero only when one
    of the centred samples is zero, and then so is the numerator: the
    quotient is [0 / 0], a [nan]. *)

Definition mean (x : vector) : R := sum x / INR (length x).

Definition center (x : vector) : vector :=
  let m := mean x in map (fun a => a - m) x.

Definition sum_of_squares (x : vector) : R := dot x x.

(** The shapes [(n,)] and [(m,)] broadcast against each other. *)
Definition broadcastable (n m : nat) : bool :=
  (n =? m)%nat || (n =? 1)%nat || (m =? 1)%nat.

(** [u] as numpy sees it in an operation with an array of [n] entries. *)
Definition broadcast (u : vector) (n : nat) : vector :=
  match u with
  | [a] => repeat a n
  | _ => u
  end.

Definition pearsonr (x y : vector) : result (option R) :=
  let xm := center x in
  let ym := center y in
  if negb (broadcastable (length xm) (length ym)) then Raise ValueError
  else
    let r_num := dot (broadcast xm (length ym)) (broadcast ym (length xm)) in
    let r_den := sqrt (sum_of_squares xm * sum_of_squares ym) in
    if Req_dec_T r_den 0 then Ok None
    else
      let r := r_num / r_den in
      Ok (Some (Rmax (Rmin r 1) (-1))).

(** [r ** 2] on a possibly-nan float. *)
Definition square (r : option R) : option R :=
  match r with
  | Some x => Some (x ^ 2)
  | None => None
  end.

(** ** The two statements *)

Section Solver.

(** The linear solver is a parameter so that a statement can say that an
    outcome does not depend on it. *)
Variable solve : ndarray2 -> vector -> result vector.

(** [coefs = solve(X.T @ X, X.T @ y)] *)
Definition normal_equation_with (X : ndarray2) (y : vector) : result vector :=
  let! a := matmul (transpose X) X in
  let! b := matvec (transpose X) y in
  solve a b.

(** [r2 = pearsonr(X @ coefs, y)[0] ** 2] *)
Definition fit_statistic (X : ndarray2) (coefs y : vector)
  : result (option R) :=
  let! yhat := matvec X coefs in
  let! r := pearsonr yhat y in
  Ok (square r).

Definition fit_ols_with (X : ndarray2) (y : vector)
  : result (vector * option R) :=
  let! coefs := normal_equation_with X y in
  let! r2 := fit_statistic X coefs y in
  Ok (coefs, r2).

End Solver.

Definition normal_equation := normal_equation_with linalg_solve.
Definition fit_ols := fit_ols_with linalg_solve.

(** ** The vocabulary of the specification *)

Definition zeros (n : nat) : vector := repeat 0 n.
Definition ones (n : nat) : vector := repeat 1 n.

Fixpoint vsub (u v : vector) : vector :=
  match u, v with
  | a :: u', b :: v' => (a - b) :: vsub u' v'
  | _, _ => []
  end.

Fixpoint vadd (u v : vector) : vector :=
  match u, v with
  | a :: u', b :: v' => (a + b) :: vadd u' v'
  | _, _ => []
  end.



(** Rank [ncols X]: no non-trivial combination of the columns vanishes. *)
Definition full_column_rank (X : ndarray2) : Prop :=
  forall v, length v = ncols X -> mv X v = zeros (nrows X) ->
            v = zeros (ncols X).

Definition singular (A : ndarray2) : Prop :=
  exists v, length v = ncols A /\ v <> zeros (ncols A) /\
            mv A v = zeros (nrows A).

(** Column [j] is the intercept column of ones. *)
Definition intercept_at (j : nat) (X : ndarray2) : Prop :=
  (j < ncols X)%nat /\ col j X = ones (nrows X).


(** Pearson's correlation coefficient in terms of the operations of the
    code: the sum of products of deviations over the product of the root
    sums of squared deviations; undefined when either sample is constant or
    empty. *)
Definition pearson_r (x y : vector) : option R :=
  let sx := sqrt (sum_of_squares (center x)) in
  let sy := sqrt (sum_of_squares (center y)) in
  if Req_dec_T (sx * sy) 0 then None
  else Some (dot (center x) (center y) / (sx * sy)).



(** Pearson's correlation coefficient as the specification and a textbook
    have it, written without any of the definitions above:

      r = Σ (xᵢ − x̄)(yᵢ − ȳ) / ( √Σ (xᵢ − x̄)² · √Σ (yᵢ − ȳ)² )

    with x̄ and ȳ the sample means; r is undefined when a sample has no
    spread. *)

Module Textbook.






End Textbook.


(** [X.T @ X], the matrix of the normal equations. *)
Definition gram (X : ndarray2) : ndarray2 :=
  {| ncols := ncols X;
     rows := map (fun i => map (fun j => dot (col i X) (col j X))
                               (seq 0 (ncols X)))
                 (seq 0 (ncols X)) |}.

(** Every row of an augmented system has [n] coefficients. *)
Definition wf_sys (n : nat) (sys : list aug_row) : Prop :=
  Forall (fun r => length (fst r) = n) sys.

(** ** The scikit-learn path

    [LinearRegression(fit_intercept=False)] is scikit-learn's code, not the
    notebook's, so it is modelled by its documented contract: [fit] stores in
    [coef_] the least-squares solution returned by [scipy.linalg.lstsq] (of
    least norm when there are several), and [score] is [r2_score] of the
    predictions [X @ coef_]. *)

Module Sklearn.




End Sklearn.

(** ** Concrete inputs *)

(** The scenario of the specification: an intercept column and one
    predictor, [y = 2 x]. *)
Definition X_line : ndarray2 := Array2 2 [[1; 1]; [1; 2]; [1; 3]; [1; 4]].
Definition y_line : vector := [2; 4; 6; 8].


(** The shapes of the dimension-mismatch scenario: (10, 3) and 9. *)
Definition X_10x3 : ndarray2 := Array2 3 (repeat [1; 2; 3] 10).
Definition y_9 : vector := repeat 1 9.




(** A regression through the origin: no intercept column. *)
Definition X_origin : ndarray2 := Array2 1 [[1]; [2]; [3]].
Definition y_origin : vector := [1; 1; 2].

(** ** The dataset cell

    [X_with_const = np.hstack([np.ones((X.shape[0], 1)), X])] puts a column
    of ones in front of the predictors. *)

(** [np.ones((n, m))] *)
Definition np_ones (n m : nat) : ndarray2 :=
  {| ncols := m; rows := repeat (ones m) n |}.

(** [np.hstack([A, B])] for two 2-D arrays: the rows of [A] followed by the
    rows of [B], row by row; numpy raises [ValueError] when the two arrays
    do not have the same number of rows. *)
Definition hstack (A B : ndarray2) : result ndarray2 :=
  if negb (nrows A =? nrows B)%nat then Raise ValueError
  else Ok {| ncols := ncols A + ncols B;
             rows := map (fun ab => fst ab ++ snd ab)
                         (combine (rows A) (rows B)) |}.

Definition add_constants (X : ndarray2) : result ndarray2 :=
  hstack (np_ones (nrows X) 1) X.

(** ** The version cell

    [for pkg in [...]: version = pkg_resources.get_distribution(pkg).version;
    print(f"{pkg} version = {version}")].  The set of installed
    distributions is a finite map from names to version strings;
    [get_distribution] raises [DistributionNotFound] for a name that is not
    installed.  The cell's state is the text printed so far, one line per
    entry. *)

Module Versions.

Definition packages : list string :=
  ["numpy"; "scipy"; "pandas"; "statsmodels"; "scikit-learn"]%string.

Inductive outcome :=
  | Finished
  | DistributionNotFound (pkg : string).

Definition line (pkg version : string) : string :=
  (pkg ++ " version = " ++ version)%string.

Fixpoint report (installed : gmap string string) (pkgs : list string)
                (printed : list string) : list string * outcome :=
  match pkgs with
  | [] => (printed, Finished)
  | pkg :: rest =>
      match installed !! pkg with
      | None => (printed, DistributionNotFound pkg)
      | Some version => report installed rest (printed ++ [line pkg version])
      end
  end.

Definition version_cell (installed : gmap string string)
  : list string * outcome :=
  report installed packages [].

End Versions.

(** ** More vocabulary *)





Definition symmetric (A : ndarray2) : Prop := transpose A = A.

(** Two predictors measured on three observations. *)
Definition X_raw : ndarray2 := Array2 2 [[1; 4]; [2; 5]; [3; 7]].
Definition y_raw : vector := [1; 3; 2].

Definition b_2 : vector := [3; 5].

(** The versions the notebook was run with. *)
Definition installed_2019 : gmap string string :=
  list_to_map [("numpy", "1.16.3"); ("scipy", "1.2.1"); ("pandas", "0.24.2");
               ("statsmodels", "0.9.0"); ("scikit-learn", "0.19.2")]%string.

(** * Proofs *)

(** Evaluation of the array operations on concrete inputs. *)
Ltac vec_eq := repeat (apply (f_equal2 (@cons R)); [lra|]); reflexivity.

Ltac unfold_arrays :=
  cbv [mv gram transpose col rows ncols nrows map seq nth dot zeros ones repeat
       center mean sum sum_of_squares vsub vadd length INR Nat.add].

Ltac unfold_arrays_in H :=
  cbv [mv gram transpose col rows ncols nrows map seq nth dot zeros ones repeat
       center mean sum sum_of_squares vsub vadd length INR Nat.add] in H.

Ltac rank_tac :=
  let v := fresh "v" in
  let Hlen := fresh "Hlen" in
  let Hmv := fresh "Hmv" in
  intros v Hlen Hmv;
  repeat (destruct v as [|? v]; simpl in Hlen; try lia);
  unfold_arrays_in Hmv; injection Hmv; intros;
  unfold_arrays; vec_eq.

Ltac shape_tac := unfold well_shaped; simpl; repeat constructor.

(** ** Vectors *)

Lemma dot_comm u : forall v, dot u v = dot v u.
Proof.
  induction u as [|a u IH]; intros [|b v]; simpl; try reflexivity.
  rewrite IH. ring.
Qed.

Lemma dot_zeros_r u : forall n, dot u (zeros n) = 0.
Proof.
  induction u as [|a u IH]; intros [|n]; simpl; try reflexivity.
  rewrite IH. ring.
Qed.

Lemma dot_zeros_l n v : dot (zeros n) v = 0.
Proof. rewrite dot_comm. apply dot_zeros_r. Qed.

Lemma length_zeros n : length (zeros n) = n.
Proof. apply repeat_length. Qed.



Lemma length_axpy l a : forall p, length a = length p ->
  length (axpy l a p) = length a.
Proof.
  induction a as [|x a IH]; intros [|q p] H; simpl in *; try lia.
  rewrite IH; lia.
Qed.





Lemma dot_axpy l a : forall p v, length a = length p ->
  dot (axpy l a p) v = dot a v - l * dot p v.
Proof.
  induction a as [|x a IH]; intros [|q p] [|c v] H; simpl in *;
    try lia; try ring.
  rewrite IH by lia. ring.
Qed.



Lemma sum_of_squares_nonneg v : 0 <= sum_of_squares v.
Proof.
  unfold sum_of_squares. induction v as [|a v IH]; simpl; [lra|]. nra.
Qed.

Lemma sum_of_squares_zero v : sum_of_squares v = 0 -> v = zeros (length v).
Proof.
  unfold sum_of_squares, zeros. induction v as [|a v IH]; simpl; intros H.
  - reflexivity.
  - pose proof (sum_of_squares_nonneg v) as Hv. unfold sum_of_squares in Hv.
    assert (a = 0) by nra. assert (dot v v = 0) by nra.
    subst a. f_equal. now apply IH.
Qed.

(** Expanding a dot product along a list of indices. *)
Lemma dot_map_add {A} (f g : A -> R) s : forall v,
  dot (map (fun i => f i + g i) s) v = dot (map f s) v + dot (map g s) v.
Proof.
  induction s as [|i s IH]; intros [|b v]; simpl; try ring.
  rewrite IH. ring.
Qed.

Lemma dot_map_scale {A} (f : A -> R) c s : forall v,
  dot (map (fun i => f i * c) s) v = c * dot (map f s) v.
Proof.
  induction s as [|i s IH]; intros [|b v]; simpl; try ring.
  rewrite IH. ring.
Qed.

Lemma map_nth_seq_shift (a : R) r n :
  map (fun i => nth i (a :: r) 0) (seq 1 n)
  = map (fun i => nth i r 0) (seq 0 n).
Proof.
  rewrite <- seq_shift, map_map. reflexivity.
Qed.

Lemma map_nth_seq_id (r : vector) :
  map (fun i => nth i r 0) (seq 0 (length r)) = r.
Proof.
  induction r as [|a r IH]; [reflexivity|].
  cbn [length seq map]. rewrite map_nth_seq_shift, IH. reflexivity.
Qed.

(** ** Matrices *)

Lemma length_mv A v : length (mv A v) = nrows A.
Proof. unfold mv, nrows. apply length_map. Qed.

Lemma length_col j X : length (col j X) = nrows X.
Proof. unfold col, nrows. apply length_map. Qed.

Lemma nrows_transpose X : nrows (transpose X) = ncols X.
Proof. unfold nrows, transpose. simpl. now rewrite length_map, length_seq. Qed.

Lemma mv_transpose X w :
  mv (transpose X) w = map (fun j => dot (col j X) w) (seq 0 (ncols X)).
Proof. unfold mv, transpose. simpl. now rewrite map_map. Qed.

Lemma matmul_transpose X : matmul (transpose X) X = Ok (gram X).
Proof.
  unfold matmul. simpl. rewrite Nat.eqb_refl. simpl.
  unfold gram. now rewrite map_map.
Qed.

Lemma nrows_gram X : nrows (gram X) = ncols X.
Proof. unfold nrows, gram. simpl. now rewrite length_map, length_seq. Qed.

Lemma well_shaped_gram X : well_shaped (gram X).
Proof.
  unfold well_shaped, gram. simpl. apply Forall_forall. intros r Hr.
  apply in_map_iff in Hr as (i & <- & _). now rewrite length_map, length_seq.
Qed.

Lemma matvec_ok A v : length v = ncols A -> matvec A v = Ok (mv A v).
Proof.
  intros H. unfold matvec. rewrite H, Nat.eqb_refl. reflexivity.
Qed.

Lemma matvec_mismatch A v :
  length v <> ncols A -> matvec A v = Raise ValueError.
Proof.
  intros H. unfold matvec.
  destruct (Nat.eqb_spec (ncols A) (length v)); [congruence | reflexivity].
Qed.

Lemma matvec_inv A v w : matvec A v = Ok w -> length v = ncols A /\ w = mv A v.
Proof.
  unfold matvec. destruct (Nat.eqb_spec (ncols A) (length v)); simpl;
    intros H; inversion H; auto.
Qed.

Lemma dot_map_zero {A} (s : list A) v : dot (map (fun _ => 0) s) v = 0.
Proof.
  revert v. induction s as [|i s IH]; intros [|b v]; simpl; try ring.
  rewrite IH. ring.
Qed.

(** The transpose is the adjoint of the matrix for the dot product. *)
Lemma adjoint_rows p rs : Forall (fun r : vector => length r = p) rs ->
  forall w v, length w = length rs ->
  dot (map (fun j => dot (map (fun r => nth j r 0) rs) w) (seq 0 p)) v
  = dot w (map (fun r => dot r v) rs).
Proof.
  induction 1 as [|r rs Hr Hrs IH]; intros [|w0 w] v Hw; simpl in Hw; try lia.
  - simpl. apply dot_map_zero.
  - cbn [map dot].
    rewrite (dot_map_add (fun j => nth j r 0 * w0)
                         (fun j => dot (map (fun r => nth j r 0) rs) w)).
    rewrite dot_map_scale, IH by lia.
    rewrite <- Hr, map_nth_seq_id. reflexivity.
Qed.

Lemma adjoint X w v : well_shaped X -> length w = nrows X ->
  dot (mv (transpose X) w) v = dot w (mv X v).
Proof.
  intros HX Hw. rewrite mv_transpose. unfold col, mv.
  now apply adjoint_rows.
Qed.

Lemma mv_gram X v : well_shaped X ->
  mv (gram X) v = mv (transpose X) (mv X v).
Proof.
  intros HX. rewrite mv_transpose. unfold mv at 1, gram. simpl.
  rewrite map_map. apply map_ext. intros i. unfold mv.
  rewrite <- (adjoint_rows (ncols X) (rows X) HX (col i X) v)
    by apply length_col.
  f_equal. apply map_ext. intros j. apply dot_comm.
Qed.

Lemma mv_zeros A n : mv A (zeros n) = zeros (nrows A).
Proof.
  unfold mv, nrows, zeros.
  induction (rows A) as [|r rs IH]; simpl; [reflexivity|].
  rewrite IH. f_equal. apply dot_zeros_r.
Qed.

(** Over the reals a matrix of full column rank has a regular Gram matrix. *)
Lemma gram_regular X : well_shaped X -> full_column_rank X ->
  ~ singular (gram X).
Proof.
  intros HX Hrank (v & Hlen & Hne & Hv). apply Hne.
  simpl in Hlen. apply Hrank; [exact Hlen|].
  rewrite mv_gram in Hv by assumption.
  assert (H0 : dot (mv X v) (mv X v) = 0).
  { rewrite <- adjoint by (try assumption; apply length_mv).
    rewrite Hv. apply dot_zeros_l. }
  apply sum_of_squares_zero in H0. now rewrite length_mv in H0.
Qed.

(** ** Gaussian elimination *)

Lemma idamax_lt xs : xs <> [] -> (idamax xs < length xs)%nat.
Proof.
  induction xs as [|x xs IH]; intros Hne; [congruence|].
  simpl. destruct xs as [|x' xs].
  - simpl. destruct (Rlt_dec (Rabs x) (Rabs 0)) as [Hlt|_]; [|lia].
    rewrite Rabs_R0 in Hlt. pose proof (Rabs_pos x). lra.
  - destruct (Rlt_dec _ _); [|lia].
    assert (idamax (x' :: xs) < length (x' :: xs))%nat
      by (apply IH; congruence).
    lia.
Qed.

Lemma idamax_max xs x : In x xs -> Rabs x <= Rabs (nth (idamax xs) xs 0).
Proof.
  induction xs as [|a xs IH]; intros Hin; [contradiction|].
  cbn [idamax].
  destruct (Rlt_dec (Rabs a) (Rabs (nth (idamax xs) xs 0))) as [Hlt|Hge];
    cbn [nth]; destruct Hin as [->|Hin]; try lra.
  - now apply IH.
  - specialize (IH Hin). lra.
Qed.

Lemma replace_nth_perm {A} (d a : A) k : forall l, (k < length l)%nat ->
  Permutation (nth k l d :: replace_nth k a l) (a :: l).
Proof.
  unfold replace_nth.
  induction k as [|k IH]; intros [|x l] Hk; simpl in Hk; try lia.
  - simpl. apply perm_swap.
  - cbn [nth firstn skipn app].
    eapply perm_trans; [apply perm_swap|].
    eapply perm_trans; [apply perm_skip, IH; lia|].
    apply perm_swap.
Qed.

Lemma pivot_perm sys :
  let k := idamax (map lead sys) in
  lead (nth k sys ([], 0)) <> 0 ->
  Permutation (nth k sys ([], 0) :: below_pivot k sys) sys.
Proof.
  intros k Hne. destruct sys as [|r0 rest].
  - exfalso. apply Hne. destruct k; reflexivity.
  - assert (Hk : (k < length (r0 :: rest))%nat).
    { unfold k. rewrite <- (length_map lead). apply idamax_lt. discriminate. }
    destruct k as [|k']; [reflexivity|].
    cbn [nth below_pivot]. apply replace_nth_perm. simpl in Hk. lia.
Qed.

Lemma pivot_zero sys :
  lead (nth (idamax (map lead sys)) sys ([], 0)) = 0 ->
  Forall (fun r => lead r = 0) sys.
Proof.
  intros H0. apply Forall_forall. intros r Hr.
  pose proof (idamax_max (map lead sys) (lead r) (in_map lead _ _ Hr)) as Hmax.
  change 0 with (lead ([], 0)) in Hmax at 1.
  rewrite map_nth, H0, Rabs_R0 in Hmax.
  pose proof (Rabs_pos (lead r)) as Hpos.
  destruct (Req_dec_T (lead r) 0) as [|Hn]; [assumption|].
  apply Rabs_pos_lt in Hn. lra.
Qed.

Lemma wf_row_inv n (r : aug_row) : length (fst r) = S n ->
  exists b0 br d, r = (b0 :: br, d) /\ length br = n.
Proof.
  destruct r as [[|b0 br] d]; simpl; intros H; [lia|].
  exists b0, br, d. split; [reflexivity | lia].
Qed.

Lemma eliminate_dot a0 ar c b0 br d v0 v' :
  a0 <> 0 -> length br = length ar ->
  a0 * v0 + dot ar v' = c ->
  (b0 * v0 + dot br v' = d <->
   dot (axpy (b0 / a0) br ar) v' = d - b0 / a0 * c).
Proof.
  intros Ha Hlen Hc. rewrite dot_axpy by assumption. subst c.
  assert (Hb : b0 = b0 / a0 * a0) by (field; assumption).
  set (l := b0 / a0) in *. clearbody l. subst b0.
  split; intros H; nra.
Qed.

Lemma wf_sys_eliminate n piv below :
  wf_sys (S n) (piv :: below) -> wf_sys n (map (eliminate piv) below).
Proof.
  unfold wf_sys. intros H. inversion H as [|? ? Hp Hb]; subst.
  apply Forall_map. eapply Forall_impl; [|exact Hb].
  intros r Hr. simpl.
  apply wf_row_inv in Hp as (a0 & ar & c & -> & Har).
  apply wf_row_inv in Hr as (b0 & br & d & -> & Hbr).
  simpl. rewrite length_axpy; lia.
Qed.

(** When the elimination stops, some non-trivial combination of the columns
    vanishes. *)
Lemma gauss_raise n : forall sys e, wf_sys n sys -> gauss n sys = Raise e ->
  e = LinAlgError Singular /\
  exists v, length v = n /\ v <> zeros n /\
            Forall (fun r => dot (fst r) v = 0) sys.
Proof.
  induction n as [|n IH]; intros sys e Hwf Hg; [discriminate|].
  cbn [gauss] in Hg.
  set (k := idamax (map lead sys)) in *.
  set (piv := nth k sys ([], 0)) in *.
  destruct (Req_dec_T (lead piv) 0) as [Hz|Hnz].
  - inversion Hg; subst e. split; [reflexivity|].
    exists (1 :: zeros n). split; [simpl; now rewrite length_zeros|].
    split; [intros Heq; inversion Heq; lra|].
    apply pivot_zero in Hz.
    apply Forall_forall. intros r Hr.
    pose proof (proj1 (Forall_forall _ _) Hwf r Hr) as Hlen.
    pose proof (proj1 (Forall_forall _ _) Hz r Hr) as Hlead.
    apply wf_row_inv in Hlen as (b0 & br & d & -> & _).
    cbv [lead fst hd] in Hlead. subst b0. simpl. rewrite dot_zeros_r. ring.
  - pose proof (pivot_perm sys Hnz) as Hperm. fold k piv in Hperm.
    assert (Hwf' : wf_sys (S n) (piv :: below_pivot k sys)).
    { eapply Permutation_Forall; [apply Permutation_sym, Hperm | exact Hwf]. }
    destruct (gauss n (map (eliminate piv) (below_pivot k sys)))
      as [xs|e'] eqn:E;
      [discriminate|].
    simpl in Hg. inversion Hg; subst e'.
    apply IH in E as (He & v' & Hlen & Hne & Hsub);
      [|now apply wf_sys_eliminate].
    split; [exact He|].
    inversion Hwf' as [|? ? Hp Hb]; subst.
    destruct (wf_row_inv _ _ Hp) as (a0 & ar & c & Epiv & Har).
    rewrite Epiv in *. cbv [lead fst hd] in Hnz.
    exists (- dot ar v' / a0 :: v'). split; [simpl; lia|].
    split; [intros Heq; apply Hne; unfold zeros in *; simpl in Heq;
            now injection Heq|].
    eapply Permutation_Forall; [exact Hperm|].
    constructor; [simpl; field; assumption|].
    apply Forall_forall. intros r Hr.
    pose proof (proj1 (Forall_forall _ _) Hb r Hr) as Hlr.
    apply wf_row_inv in Hlr as (b0 & br & d & -> & Hbr).
    pose proof (proj1 (Forall_forall _ _) Hsub
                  (eliminate (a0 :: ar, c) (b0 :: br, d))
                  (in_map _ _ _ Hr)) as Hrow.
    cbv [eliminate lead fst snd hd tl] in Hrow. simpl.
    apply (eliminate_dot a0 ar 0 b0 br 0 (- dot ar v' / a0) v');
      [assumption | lia | field; assumption | rewrite Hrow; ring].
Qed.

(** A vector returned by the elimination solves a square system. *)
Lemma gauss_sound n : forall sys x, wf_sys n sys -> length sys = n ->
  gauss n sys = Ok x ->
  length x = n /\ Forall (fun r => dot (fst r) x = snd r) sys.
Proof.
  induction n as [|n IH]; intros sys x Hwf Hlen Hg.
  - inversion Hg. destruct sys; [|discriminate].
    split; [reflexivity|constructor].
  - cbn [gauss] in Hg.
    set (k := idamax (map lead sys)) in *.
    set (piv := nth k sys ([], 0)) in *.
    destruct (Req_dec_T (lead piv) 0) as [Hz|Hnz]; [discriminate|].
    pose proof (pivot_perm sys Hnz) as Hperm. fold k piv in Hperm.
    assert (Hwf' : wf_sys (S n) (piv :: below_pivot k sys)).
    { eapply Permutation_Forall; [apply Permutation_sym, Hperm | exact Hwf]. }
    assert (Hlb : length (below_pivot k sys) = n).
    { apply Permutation_length in Hperm. simpl in Hperm. lia. }
    destruct (gauss n (map (eliminate piv) (below_pivot k sys)))
      as [xs|e'] eqn:E;
      [|discriminate].
    simpl in Hg. inversion Hg; subst x. clear Hg.
    apply IH in E as (Hxs & Hsub);
      [|now apply wf_sys_eliminate|now rewrite length_map].
    split; [simpl; lia|].
    inversion Hwf' as [|? ? Hp Hb]; subst.
    destruct (wf_row_inv _ _ Hp) as (a0 & ar & c & Epiv & Har).
    rewrite Epiv in *. cbv [lead fst hd] in Hnz. cbn [fst snd tl lead hd].
    eapply Permutation_Forall; [exact Hperm|].
    constructor; [simpl; field; assumption|].
    apply Forall_forall. intros r Hr.
    pose proof (proj1 (Forall_forall _ _) Hb r Hr) as Hlr.
    apply wf_row_inv in Hlr as (b0 & br & d & -> & Hbr).
    pose proof (proj1 (Forall_forall _ _) Hsub
                  (eliminate (a0 :: ar, c) (b0 :: br, d))
                  (in_map _ _ _ Hr)) as Hrow.
    cbv [eliminate lead fst snd hd tl] in Hrow. simpl.
    apply (eliminate_dot a0 ar c b0 br d ((c - dot ar xs) / a0) xs);
      [assumption | lia | field; assumption | exact Hrow].
Qed.

(** A system on which the elimination succeeds has no other solution. *)
Lemma gauss_unique n : forall sys x v, wf_sys n sys -> gauss n sys = Ok x ->
  length v = n -> Forall (fun r => dot (fst r) v = snd r) sys -> v = x.
Proof.
  induction n as [|n IH]; intros sys x v Hwf Hg Hv Hsat.
  - inversion Hg. now destruct v.
  - cbn [gauss] in Hg.
    set (k := idamax (map lead sys)) in *.
    set (piv := nth k sys ([], 0)) in *.
    destruct (Req_dec_T (lead piv) 0) as [Hz|Hnz]; [discriminate|].
    pose proof (pivot_perm sys Hnz) as Hperm. fold k piv in Hperm.
    assert (Hwf' : wf_sys (S n) (piv :: below_pivot k sys)).
    { eapply Permutation_Forall; [apply Permutation_sym, Hperm | exact Hwf]. }
    assert (Hsat' : Forall (fun r => dot (fst r) v = snd r)
                           (piv :: below_pivot k sys)).
    { eapply Permutation_Forall; [apply Permutation_sym, Hperm | exact Hsat]. }
    destruct (gauss n (map (eliminate piv) (below_pivot k sys)))
      as [xs|e'] eqn:E;
      [|discriminate].
    simpl in Hg. inversion Hg; subst x. clear Hg.
    destruct v as [|v0 v']; [discriminate|]. simpl in Hv.
    inversion Hwf' as [|? ? Hp Hb]; subst.
    inversion Hsat' as [|? ? Hsp Hsb]; subst.
    destruct (wf_row_inv _ _ Hp) as (a0 & ar & c & Epiv & Har).
    rewrite Epiv in *. cbv [lead fst hd] in Hnz. simpl in Hsp.
    cbn [fst snd tl lead hd].
    assert (v' = xs) as ->.
    { eapply IH; [apply wf_sys_eliminate; exact Hwf' | exact E | lia |].
      apply Forall_map. apply Forall_forall. intros r Hr.
      pose proof (proj1 (Forall_forall _ _) Hb r Hr) as Hlr.
      pose proof (proj1 (Forall_forall _ _) Hsb r Hr) as Hsr.
      apply wf_row_inv in Hlr as (b0 & br & d & -> & Hbr).
      simpl in Hsr. cbv [eliminate lead fst snd hd tl].
      apply (eliminate_dot a0 ar c b0 br d v0 v');
        [assumption | lia | exact Hsp | exact Hsr]. }
    f_equal. rewrite <- Hsp. field. assumption.
Qed.

(** ** The contract of [np.linalg.solve] *)

Lemma wf_sys_combine n rs : Forall (fun r : vector => length r = n) rs ->
  forall b, wf_sys n (combine rs b).
Proof.
  unfold wf_sys. induction 1 as [|r rs Hr _ IH]; intros [|c b]; simpl;
    constructor; auto.
Qed.

Lemma combine_sat x rs : forall b, length b = length rs ->
  Forall (fun r : aug_row => dot (fst r) x = snd r) (combine rs b) <->
  map (fun r => dot r x) rs = b.
Proof.
  induction rs as [|r rs IH]; intros [|c b] Hlen; simpl in Hlen; try lia.
  - simpl. split; auto.
  - simpl. split.
    + intros H. inversion H; subst. simpl in *.
      f_equal; [assumption|]. apply IH; [lia|assumption].
    + intros H. inversion H; subst. constructor; [reflexivity|].
      apply IH; [now rewrite length_map | reflexivity].
Qed.

Lemma combine_null v rs : forall b : vector, length b = length rs ->
  Forall (fun r : aug_row => dot (fst r) v = 0) (combine rs b) ->
  map (fun r => dot r v) rs = zeros (length rs).
Proof.
  induction rs as [|r rs IH]; intros [|c b] Hlen H; simpl in Hlen; try lia.
  - reflexivity.
  - inversion H; subst. simpl in *. unfold zeros in *. simpl.
    f_equal; [assumption|]. apply (IH b); [lia | assumption].
Qed.

Lemma linalg_solve_square A b : nrows A = ncols A -> length b = nrows A ->
  linalg_solve A b = gauss (ncols A) (combine (rows A) b).
Proof.
  intros Hsq Hb. unfold linalg_solve.
  rewrite Hsq, Hb, Hsq, !Nat.eqb_refl. reflexivity.
Qed.

Lemma linalg_solve_sound A b x :
  well_shaped A -> nrows A = ncols A -> length b = nrows A ->
  linalg_solve A b = Ok x -> length x = ncols A /\ mv A x = b.
Proof.
  intros HA Hsq Hb Hs. rewrite linalg_solve_square in Hs by assumption.
  apply gauss_sound in Hs as [Hlen Hsat].
  - split; [assumption|]. now apply combine_sat.
  - now apply wf_sys_combine.
  - unfold aug_row. rewrite length_combine. unfold nrows in *. lia.
Qed.

Lemma linalg_solve_unique A b x v :
  well_shaped A -> nrows A = ncols A -> length b = nrows A ->
  linalg_solve A b = Ok x -> length v = ncols A -> mv A v = b -> v = x.
Proof.
  intros HA Hsq Hb Hs Hv Hmv. rewrite linalg_solve_square in Hs by assumption.
  eapply gauss_unique; eauto.
  - now apply wf_sys_combine.
  - now apply combine_sat.
Qed.

Lemma linalg_solve_raise A b e :
  well_shaped A -> nrows A = ncols A -> length b = nrows A ->
  linalg_solve A b = Raise e -> e = LinAlgError Singular /\ singular A.
Proof.
  intros HA Hsq Hb Hs. rewrite linalg_solve_square in Hs by assumption.
  apply gauss_raise in Hs as (He & v & Hlen & Hne & Hnull);
    [|now apply wf_sys_combine].
  split; [assumption|]. exists v. repeat split; try assumption.
  unfold mv. now apply (combine_null v (rows A) b).
Qed.






Lemma linalg_solve_regular A b :
  well_shaped A -> nrows A = ncols A -> length b = nrows A ->
  ~ singular A -> exists x, linalg_solve A b = Ok x.
Proof.
  intros HA Hsq Hb Hreg.
  destruct (linalg_solve A b) as [x|e] eqn:Hs; [now exists x|].
  exfalso. apply Hreg. now destruct (linalg_solve_raise _ _ _ HA Hsq Hb Hs).
Qed.

(** ** The normal equations *)

Lemma length_mv_transpose X w : length (mv (transpose X) w) = ncols X.
Proof. now rewrite length_mv, nrows_transpose. Qed.

Lemma normal_equation_with_ok solve X y : length y = nrows X ->
  normal_equation_with solve X y = solve (gram X) (mv (transpose X) y).
Proof.
  intros Hy. unfold normal_equation_with.
  rewrite matmul_transpose. cbn [rbind].
  rewrite matvec_ok by exact Hy. reflexivity.
Qed.

Lemma normal_equation_with_mismatch solve X y : length y <> nrows X ->
  normal_equation_with solve X y = Raise ValueError.
Proof.
  intros Hy. unfold normal_equation_with.
  rewrite matmul_transpose. cbn [rbind].
  rewrite matvec_mismatch by exact Hy. reflexivity.
Qed.

(** What a successful first statement establishes. *)
Lemma normal_equation_sound X y beta :
  normal_equation X y = Ok beta ->
  length y = nrows X /\ length beta = ncols X /\
  mv (gram X) beta = mv (transpose X) y.
Proof.
  intros H. unfold normal_equation in H.
  destruct (Nat.eq_dec (length y) (nrows X)) as [Hy|Hy].
  - rewrite normal_equation_with_ok in H by assumption.
    assert (Hb : length (mv (transpose X) y) = nrows (gram X))
      by now rewrite length_mv_transpose, nrows_gram.
    destruct (linalg_solve_sound (gram X) _ _ (well_shaped_gram X)
                (nrows_gram X) Hb H) as [Hlen Hmv].
    repeat split; assumption.
  - rewrite normal_equation_with_mismatch in H by assumption. discriminate.
Qed.

Lemma normal_equation_unique X y beta v :
  normal_equation X y = Ok beta ->
  length v = ncols X -> mv (gram X) v = mv (transpose X) y -> v = beta.
Proof.
  intros H Hv Hmv.
  destruct (normal_equation_sound _ _ _ H) as (Hy & _ & _).
  unfold normal_equation in H.
  rewrite normal_equation_with_ok in H by assumption.
  apply (linalg_solve_unique (gram X) (mv (transpose X) y));
    try assumption.
  - apply well_shaped_gram.
  - exact (nrows_gram X).
  - now rewrite length_mv_transpose, nrows_gram.
Qed.

Lemma normal_equation_regular X y : well_shaped X -> length y = nrows X ->
  full_column_rank X -> exists beta, normal_equation X y = Ok beta.
Proof.
  intros HX Hy Hrank. unfold normal_equation.
  rewrite normal_equation_with_ok by assumption.
  apply linalg_solve_regular.
  - apply well_shaped_gram.
  - exact (nrows_gram X).
  - now rewrite length_mv_transpose, nrows_gram.
  - now apply gram_regular.
Qed.





(** ** Pearson's correlation *)

Lemma cauchy_schwarz u : forall v,
  dot u v * dot u v <= sum_of_squares u * sum_of_squares v.
Proof.
  unfold sum_of_squares.
  induction u as [|a u IH]; intros [|b v]; simpl; try lra.
  specialize (IH v).
  pose proof (sum_of_squares_nonneg u) as Hu.
  pose proof (sum_of_squares_nonneg v) as Hv.
  unfold sum_of_squares in Hu, Hv.
  set (s := dot u v) in *. set (U := dot u u) in *. set (V := dot v v) in *.
  assert (Hx : 0 <= a * a * V + b * b * U) by nra.
  assert (Hsq : (2 * a * b * s) * (2 * a * b * s)
                <= (a * a * V + b * b * U) * (a * a * V + b * b * U)).
  { pose proof (Rle_0_sqr (a * a * V - b * b * U)) as H1.
    pose proof (Rle_0_sqr (a * b)) as H2. unfold Rsqr in H1, H2.
    assert (H3 : 0 <= (a * b) * (a * b) * (U * V - s * s))
      by (apply Rmult_le_pos; lra).
    lra. }
  assert (Hle : 2 * a * b * s <= a * a * V + b * b * U).
  { destruct (Rle_lt_dec (2 * a * b * s) (a * a * V + b * b * U)) as [|Hgt];
      [assumption|].
    exfalso.
    assert (0 < (2 * a * b * s - (a * a * V + b * b * U))
                * (2 * a * b * s + (a * a * V + b * b * U)))
      by (apply Rmult_lt_0_compat; lra).
    lra. }
  lra.
Qed.

Lemma ratio_bounds N D : 0 < D -> N * N <= D * D -> -1 <= N / D <= 1.
Proof.
  intros HD HN. assert (- D <= N <= D) by nra.
  pose proof (Rinv_0_lt_compat D HD) as Hinv.
  assert (HDD : D * / D = 1) by (field; lra).
  unfold Rdiv. split; nra.
Qed.

Lemma clip_id r : -1 <= r <= 1 -> Rmax (Rmin r 1) (-1) = r.
Proof.
  intros [Hlo Hhi]. rewrite Rmin_left by assumption. now apply Rmax_left.
Qed.

Lemma length_center x : length (center x) = length x.
Proof. apply length_map. Qed.

Lemma broadcast_same u n : length u = n -> broadcast u n = u.
Proof. destruct u as [|a [|b u]]; intros <-; reflexivity. Qed.

Lemma broadcastable_spec n m :
  broadcastable n m = true <-> n = m \/ n = 1%nat \/ m = 1%nat.
Proof.
  unfold broadcastable. rewrite !orb_true_iff, !Nat.eqb_eq. tauto.
Qed.

(** The clamp of [pearsonr] never fires on real numbers, and the root of the
    product is the product of the roots: on two samples of the same length
    the routine computes Pearson's r. *)
Lemma pearsonr_pearson_r x y : length x = length y ->
  pearsonr x y = Ok (pearson_r x y).
Proof.
  intros Hlen. unfold pearsonr, pearson_r. rewrite !length_center.
  rewrite (proj2 (broadcastable_spec _ _)) by (now left). cbn [negb].
  rewrite !broadcast_same by (rewrite length_center; congruence).
  pose proof (sum_of_squares_nonneg (center x)) as Hx.
  pose proof (sum_of_squares_nonneg (center y)) as Hy.
  rewrite <- sqrt_mult by assumption.
  destruct (Req_dec_T _ 0) as [_|Hn]; [reflexivity|].
  f_equal. f_equal. apply clip_id.
  set (P := sum_of_squares (center x) * sum_of_squares (center y)) in *.
  assert (HP : 0 <= P) by (unfold P; nra).
  apply ratio_bounds.
  - pose proof (sqrt_pos P). lra.
  - rewrite sqrt_sqrt by assumption. apply cauchy_schwarz.
Qed.

(** Two samples of different lengths, neither of one entry, do not
    broadcast. *)
Lemma pearsonr_mismatch x y :
  length x <> length y -> length x <> 1%nat -> length y <> 1%nat ->
  pearsonr x y = Raise ValueError.
Proof.
  intros H Hx Hy. unfold pearsonr. rewrite !length_center.
  destruct (broadcastable (length x) (length y)) eqn:E; [|reflexivity].
  apply broadcastable_spec in E. tauto.
Qed.

Lemma one_entry_no_spread x :
  length x = 1%nat -> sum_of_squares (center x) = 0.
Proof.
  destruct x as [|a [|b x]]; try discriminate. intros _.
  unfold sum_of_squares, center, mean. cbn [map sum length INR dot]. field.
Qed.

(** A sample of one entry is stretched to the length of the other one; its
    deviation from its own mean is zero, and the quotient is [0 / 0]. *)
Lemma pearsonr_one_entry x y :
  length x = 1%nat \/ length y = 1%nat -> pearsonr x y = Ok None.
Proof.
  intros H. unfold pearsonr. rewrite !length_center.
  rewrite (proj2 (broadcastable_spec _ _)) by tauto. cbn [negb].
  destruct (Req_dec_T _ 0) as [_|Hn]; [reflexivity|].
  exfalso. apply Hn.
  destruct H as [H|H]; rewrite (one_entry_no_spread _ H);
    rewrite ?Rmult_0_l, ?Rmult_0_r; apply sqrt_0.
Qed.

Lemma pearsonr_raise x y e : pearsonr x y = Raise e ->
  e = ValueError /\ length x <> length y /\
  length x <> 1%nat /\ length y <> 1%nat.
Proof.
  intros H.
  destruct (Nat.eq_dec (length x) (length y)) as [E|E];
    [rewrite pearsonr_pearson_r in H by exact E; discriminate|].
  destruct (Nat.eq_dec (length x) 1) as [Ex|Ex];
    [rewrite pearsonr_one_entry in H by (now left); discriminate|].
  destruct (Nat.eq_dec (length y) 1) as [Ey|Ey];
    [rewrite pearsonr_one_entry in H by (now right); discriminate|].
  rewrite pearsonr_mismatch in H by assumption.
  injection H as <-. auto.
Qed.

(** When Pearson's r is defined its square is the usual ratio. *)
Lemma pearson_r_square x y r : pearson_r x y = Some r ->
  sum_of_squares (center x) * sum_of_squares (center y) <> 0 /\
  r ^ 2 = (dot (center x) (center y)) ^ 2
          / (sum_of_squares (center x) * sum_of_squares (center y)).
Proof.
  unfold pearson_r.
  pose proof (sum_of_squares_nonneg (center x)) as Hx.
  pose proof (sum_of_squares_nonneg (center y)) as Hy.
  set (A := sum_of_squares (center x)) in *.
  set (B := sum_of_squares (center y)) in *.
  destruct (Req_dec_T (sqrt A * sqrt B) 0) as [|Hn]; [discriminate|].
  intros H. inversion H; subst r. clear H.
  assert (HA : A <> 0).
  { intros ->. apply Hn. rewrite sqrt_0. ring. }
  assert (HB : B <> 0).
  { intros ->. apply Hn. rewrite sqrt_0. ring. }
  split; [nra|].
  pose proof (sqrt_sqrt A Hx) as HsA. pose proof (sqrt_sqrt B Hy) as HsB.
  assert (sqrt A <> 0) by (intros E; rewrite E in HsA; lra).
  assert (sqrt B <> 0) by (intros E; rewrite E in HsB; lra).
  replace (A * B) with ((sqrt A * sqrt B) * (sqrt A * sqrt B))
    by (transitivity ((sqrt A * sqrt A) * (sqrt B * sqrt B));
        [ring | now rewrite HsA, HsB]).
  field. auto.
Qed.

Lemma pearson_r_none x y : pearson_r x y = None ->
  sum_of_squares (center x) = 0 \/ sum_of_squares (center y) = 0.
Proof.
  unfold pearson_r.
  destruct (Req_dec_T _ 0) as [H0|]; [|discriminate]. intros _.
  apply Rmult_integral in H0 as [H0|H0]; [left|right];
    now apply sqrt_eq_0; [apply sum_of_squares_nonneg|].
Qed.

Lemma pearson_r_defined x y :
  sum_of_squares (center x) * sum_of_squares (center y) <> 0 ->
  exists r, pearson_r x y = Some r.
Proof.
  intros Hn. destruct (pearson_r x y) as [r|] eqn:E; [now exists r|].
  apply pearson_r_none in E as [E|E]; rewrite E in Hn; lra.
Qed.





(** ** The two statements together *)

(** [pearsonr] is always called on two arrays of the same length. *)
Lemma fit_statistic_lengths X beta (y yhat : vector) :
  matvec X beta = Ok yhat -> length y = nrows X -> length yhat = length y.
Proof.
  intros H Hy. apply matvec_inv in H as [_ ->]. now rewrite length_mv.
Qed.

Lemma fit_statistic_ok X beta y :
  length beta = ncols X -> length y = nrows X ->
  fit_statistic X beta y = Ok (square (pearson_r (mv X beta) y)).
Proof.
  intros Hb Hy. unfold fit_statistic.
  rewrite matvec_ok by assumption. cbn [rbind].
  rewrite pearsonr_pearson_r by (now rewrite length_mv). reflexivity.
Qed.

Lemma fit_ols_of_normal_equation X y beta :
  normal_equation X y = Ok beta ->
  fit_ols X y = Ok (beta, square (pearson_r (mv X beta) y)).
Proof.
  intros H. destruct (normal_equation_sound _ _ _ H) as (Hy & Hb & _).
  unfold fit_ols, fit_ols_with. fold normal_equation. rewrite H. cbn [rbind].
  rewrite fit_statistic_ok by assumption. reflexivity.
Qed.

Lemma fit_ols_inv X y beta s : fit_ols X y = Ok (beta, s) ->
  normal_equation X y = Ok beta /\ s = square (pearson_r (mv X beta) y).
Proof.
  intros H. destruct (normal_equation X y) as [b|e] eqn:E.
  - rewrite (fit_ols_of_normal_equation _ _ _ E) in H.
    inversion H; subst. auto.
  - unfold fit_ols, fit_ols_with in H. fold normal_equation in H.
    rewrite E in H. discriminate.
Qed.

Lemma fit_ols_raise X y e : fit_ols X y = Raise e ->
  normal_equation X y = Raise e.
Proof.
  intros H. destruct (normal_equation X y) as [b|e'] eqn:E.
  - rewrite (fit_ols_of_normal_equation _ _ _ E) in H. discriminate.
  - unfold fit_ols, fit_ols_with in H. fold normal_equation in H.
    rewrite E in H. cbn [rbind] in H. now inversion H.
Qed.

(** A full-rank fit is decided by the normal equations alone. *)
Lemma fit_ols_char X y beta :
  well_shaped X -> length y = nrows X -> full_column_rank X ->
  length beta = ncols X -> mv (gram X) beta = mv (transpose X) y ->
  fit_ols X y = Ok (beta, square (pearson_r (mv X beta) y)).
Proof.
  intros HX Hy Hrank Hb Hne.
  destruct (normal_equation_regular X y HX Hy Hrank) as [b E].
  rewrite (normal_equation_unique _ _ _ _ E Hb Hne).
  now apply fit_ols_of_normal_equation.
Qed.

Lemma square_pearson_r_some x y v :
  sum_of_squares (center x) * sum_of_squares (center y) <> 0 ->
  (dot (center x) (center y)) ^ 2
  / (sum_of_squares (center x) * sum_of_squares (center y)) = v ->
  square (pearson_r x y) = Some v.
Proof.
  intros Hn Hv. destruct (pearson_r_defined x y Hn) as [r Hr].
  rewrite Hr. cbn [square]. f_equal.
  destruct (pearson_r_square _ _ _ Hr) as [_ ->]. exact Hv.
Qed.


Lemma X_line_full_rank : full_column_rank X_line.
Proof. unfold X_line. rank_tac. Qed.

Lemma fit_ols_line : fit_ols X_line y_line = Ok ([0; 2], Some 1).
Proof.
  rewrite (fit_ols_char X_line y_line [0; 2]); unfold X_line, y_line.
  - f_equal. f_equal. apply square_pearson_r_some; unfold_arrays.
    + lra.
    + field.
  - shape_tac.
  - reflexivity.
  - apply X_line_full_rank.
  - reflexivity.
  - unfold_arrays. vec_eq.
Qed.

(** ** Further lemmas for the claims *)

Lemma dot_as_sum r : forall beta : vector, length r = length beta ->
  dot r beta
  = sum (map (fun j => nth j r 0 * nth j beta 0) (seq 0 (length r))).
Proof.
  induction r as [|a r IH]; intros [|b beta] H; simpl in H; try lia.
  - reflexivity.
  - cbn [dot length seq map sum nth]. rewrite <- seq_shift, map_map.
    cbn [nth]. rewrite <- IH by lia. reflexivity.
Qed.

Lemma nth_map_seq (f : nat -> R) j p : (j < p)%nat ->
  nth j (map f (seq 0 p)) 0 = f j.
Proof.
  intros Hj. rewrite (nth_indep _ 0 (f O))
    by (now rewrite length_map, length_seq).
  rewrite map_nth, seq_nth by assumption. reflexivity.
Qed.


(** ** Centred sums *)










Lemma X_origin_full_rank : full_column_rank X_origin.
Proof. unfold X_origin. rank_tac. Qed.

Lemma X_origin_normal_equations :
  mv (gram X_origin) [9 / 14] = mv (transpose X_origin) y_origin.
Proof. unfold X_origin, y_origin. unfold_arrays. vec_eq. Qed.


Lemma fit_ols_origin :
  fit_ols X_origin y_origin = Ok ([9 / 14], Some (3 / 4)).
Proof.
  rewrite (fit_ols_char X_origin y_origin [9 / 14]);
    try exact X_origin_normal_equations; try exact X_origin_full_rank;
    try reflexivity; [|unfold X_origin; shape_tac].
  f_equal. f_equal. unfold X_origin, y_origin.
  apply square_pearson_r_some; unfold_arrays; [lra | field].
Qed.



(** ** Samples without spread *)





Lemma pearson_r_square_le_1 x y r : pearson_r x y = Some r -> r ^ 2 <= 1.
Proof.
  intros Hr. destruct (pearson_r_square _ _ _ Hr) as [Hnz Hsq].
  pose proof (cauchy_schwarz (center x) (center y)) as Hcs.
  pose proof (sum_of_squares_nonneg (center x)).
  pose proof (sum_of_squares_nonneg (center y)).
  set (P := sum_of_squares (center x) * sum_of_squares (center y)) in *.
  assert (HP : 0 < P) by (unfold P in *; nra).
  assert (Hinv : 0 < / P) by now apply Rinv_0_lt_compat.
  assert (HPP : P * / P = 1) by (field; lra).
  rewrite Hsq. unfold Rdiv.
  set (N := dot (center x) (center y)) in *.
  replace (N ^ 2) with (N * N) by ring. nra.
Qed.



(** ** The exceptions of [np.linalg.solve] *)

Lemma gauss_raise_kind n : forall sys e,
  gauss n sys = Raise e -> e = LinAlgError Singular.
Proof.
  induction n as [|n IH]; intros sys e H; [discriminate|].
  cbn [gauss] in H.
  destruct (Req_dec_T _ 0) as [_|_]; [now injection H|].
  destruct (gauss n _) as [xs|e'] eqn:E; cbn [rbind] in H; [discriminate|].
  injection H as <-. exact (IH _ _ E).
Qed.

Lemma linalg_solve_raise_kind A b e :
  nrows A = ncols A -> length b = nrows A ->
  linalg_solve A b = Raise e -> e = LinAlgError Singular.
Proof.
  intros Hsq Hb H. rewrite linalg_solve_square in H by assumption.
  exact (gauss_raise_kind _ _ _ H).
Qed.

(** * The claims *)





(** C4. When [y] does not have as many entries as [X] has rows, the call
    fails with DimensionMismatch (numpy's [ValueError], raised by
    [X.T @ y]).  The failure is the same whatever the linear solver would
    do, also one that always raises: it happens before the solve. *)
Theorem row_count_mismatch solve X y :
  length y <> nrows X ->
  fit_ols_with solve X y = Raise DimensionMismatch.
Proof.
  intros Hy. unfold fit_ols_with.
  rewrite normal_equation_with_mismatch by exact Hy. reflexivity.
Qed.

Lemma row_count_mismatch_witness :
  length y_9 <> nrows X_10x3 /\
  fit_ols X_10x3 y_9 = Raise DimensionMismatch.
Proof.
  assert (H : length y_9 <> nrows X_10x3)
    by (cbv [length repeat nrows rows X_10x3 y_9]; lia).
  split; [exact H|].
  exact (row_count_mismatch linalg_solve X_10x3 y_9 H).
Defined.










(** C9. Whenever [fit_ols] succeeds the coefficient vector has one entry per
    column of [X], in the order of the columns: the fitted value of a row is
    the sum over the columns j of its j-th entry times the j-th coefficient,
    and the j-th normal equation pairs the j-th column with the residual. *)
Theorem coefficients_per_column X y beta s :
  fit_ols X y = Ok (beta, s) ->
  length beta = ncols X /\
  (well_shaped X ->
   (forall r, In r (rows X) ->
      dot r beta
      = sum (map (fun j => nth j r 0 * nth j beta 0) (seq 0 (ncols X)))) /\
   (forall j, (j < ncols X)%nat ->
      dot (col j X) (mv X beta) = dot (col j X) y)).
Proof.
  intros H. apply fit_ols_inv in H as [E _].
  destruct (normal_equation_sound _ _ _ E) as (Hy & Hb & Hne).
  split; [exact Hb|]. intros HX. split.
  - intros r Hr.
    pose proof (proj1 (Forall_forall _ _) HX r Hr) as Hlen.
    cbv beta in Hlen. rewrite <- Hlen. apply dot_as_sum. lia.
  - intros j Hj. rewrite mv_gram, !mv_transpose in Hne by assumption.
    apply (f_equal (fun l => nth j l 0)) in Hne.
    now rewrite !nth_map_seq in Hne by assumption.
Qed.

Lemma coefficients_per_column_witness :
  fit_ols X_line y_line = Ok ([0; 2], Some 1) /\
  well_shaped X_line /\ In [1; 3] (rows X_line) /\ (1 < ncols X_line)%nat /\
  length [0; 2] = ncols X_line /\
  dot [1; 3] [0; 2]
  = sum (map (fun j => nth j [1; 3] 0 * nth j [0; 2] 0)
             (seq 0 (ncols X_line))) /\
  dot (col 1 X_line) (mv X_line [0; 2]) = dot (col 1 X_line) y_line.
Proof.
  assert (H1 : well_shaped X_line) by (unfold X_line; shape_tac).
  assert (H2 : In [1; 3] (rows X_line)) by (simpl; auto).
  assert (H3 : (1 < ncols X_line)%nat) by (simpl; lia).
  destruct (coefficients_per_column X_line y_line [0; 2] (Some 1)
              fit_ols_line) as [Hlen Hcols].
  destruct (Hcols H1) as [Hrow Hcol].
  split; [exact fit_ols_line|]. split; [exact H1|]. split; [exact H2|].
  split; [exact H3|]. split; [exact Hlen|].
  split; [exact (Hrow [1; 3] H2) | exact (Hcol 1%nat H3)].
Defined.

(** * Further properties of the code *)

(** ** The dataset cell: [np.hstack] and the column of ones *)

Lemma hstack_rows_spec p q (ra rb : list vector) :
  Forall (fun r => length r = p) ra -> Forall (fun r => length r = q) rb ->
  length ra = length rb ->
  let rc := map (fun ab => fst ab ++ snd ab) (combine ra rb) in
  length rc = length ra /\
  Forall (fun r => length r = (p + q)%nat) rc /\
  (forall j, (j < p)%nat ->
     map (fun r => nth j r 0) rc = map (fun r => nth j r 0) ra) /\
  (forall j, map (fun r => nth (p + j) r 0) rc = map (fun r => nth j r 0) rb).
Proof.
  intros Ha. revert rb.
  induction Ha as [|a ra Hla Hra IH]; intros [|b rb] Hb Hlen; simpl in Hlen;
    try lia.
  - simpl. repeat split; auto.
  - inversion Hb as [|? ? Hlb Hrb]; subst.
    destruct (IH rb Hrb ltac:(lia)) as (H1 & H2 & H3 & H4).
    cbn [combine map fst snd length]. repeat split.
    + now rewrite H1.
    + constructor; [now rewrite length_app | exact H2].
    + intros j Hj. rewrite H3 by assumption.
      now rewrite app_nth1 by lia.
    + intros j. rewrite H4. now rewrite app_nth2_plus.
Qed.

(** X1. [np.hstack] fails exactly when the row counts differ; otherwise the
    result has the rows of [A], the columns of [A] followed by the columns of
    [B], and is again rectangular. *)
Theorem hstack_columns A B :
  well_shaped A -> well_shaped B ->
  ((nrows A <> nrows B) -> hstack A B = Raise ValueError) /\
  ((nrows A = nrows B) ->
   exists C, hstack A B = Ok C /\
     nrows C = nrows A /\ ncols C = (ncols A + ncols B)%nat /\
     well_shaped C /\
     (forall j, (j < ncols A)%nat -> col j C = col j A) /\
     (forall j, col (ncols A + j) C = col j B)).
Proof.
  intros HA HB. unfold hstack. split; intros Hn.
  - destruct (Nat.eqb_spec (nrows A) (nrows B)); [contradiction|reflexivity].
  - rewrite Hn, Nat.eqb_refl. cbn [negb].
    destruct (hstack_rows_spec (ncols A) (ncols B) (rows A) (rows B) HA HB Hn)
      as (H1 & H2 & H3 & H4).
    eexists. split; [reflexivity|].
    unfold nrows, well_shaped, col in *. cbn [rows ncols].
    repeat split; try assumption. rewrite <- Hn. exact H1.
Qed.

Lemma hstack_columns_witness :
  well_shaped (np_ones 3 1) /\ well_shaped X_raw /\
  nrows (np_ones 3 1) = nrows X_raw /\
  exists C, hstack (np_ones 3 1) X_raw = Ok C /\
     nrows C = 3%nat /\ ncols C = 3%nat /\ well_shaped C /\
     (forall j, (j < 1)%nat -> col j C = col j (np_ones 3 1)) /\
     (forall j, col (1 + j) C = col j X_raw).
Proof.
  assert (H1 : well_shaped (np_ones 3 1)) by shape_tac.
  assert (H2 : well_shaped X_raw) by (unfold X_raw; shape_tac).
  assert (H3 : nrows (np_ones 3 1) = nrows X_raw) by reflexivity.
  split; [exact H1|]. split; [exact H2|]. split; [exact H3|].
  exact (proj2 (hstack_columns (np_ones 3 1) X_raw H1 H2) H3).
Defined.

Lemma hstack_ones_rows n (rs : list vector) : length rs = n ->
  map (fun ab => fst ab ++ snd ab) (combine (repeat (ones 1) n) rs)
  = map (cons 1) rs.
Proof.
  revert n. induction rs as [|r rs IH]; intros [|n] H; simpl in H; try lia.
  - reflexivity.
  - cbn [repeat combine map fst snd]. rewrite IH by lia. reflexivity.
Qed.

Lemma add_constants_ok X :
  add_constants X
  = Ok {| ncols := S (ncols X); rows := map (cons 1) (rows X) |}.
Proof.
  unfold add_constants, hstack, np_ones, nrows. cbn [rows ncols].
  rewrite repeat_length, Nat.eqb_refl. cbn [negb].
  now rewrite hstack_ones_rows.
Qed.

Lemma mv_add_constants X X1 b0 b :
  add_constants X = Ok X1 ->
  mv X1 (b0 :: b) = map (fun t => b0 + t) (mv X b).
Proof.
  rewrite add_constants_ok. intros H. injection H as <-.
  unfold mv. cbn [rows]. rewrite !map_map. apply map_ext.
  intros r. simpl. ring.
Qed.



(** X2. The dataset cell never raises: whatever [X] is, [X_with_const] has
    the rows of [X] with a 1 in front, so one column more, a first column of
    ones, and the columns of [X] after it; dropping the first entry of each
    row gives [X] back. *)
Theorem add_constants_intercept X :
  exists X1, add_constants X = Ok X1 /\
    nrows X1 = nrows X /\ ncols X1 = S (ncols X) /\
    intercept_at 0 X1 /\
    (forall j, col (S j) X1 = col j X) /\
    map (@tl R) (rows X1) = rows X /\
    (well_shaped X -> well_shaped X1).
Proof.
  eexists. split; [apply add_constants_ok|].
  unfold nrows, intercept_at, col, well_shaped, ones. cbn [rows ncols].
  rewrite length_map. repeat split.
  - lia.
  - induction (rows X) as [|r rs IH]; simpl; [reflexivity | now rewrite IH].
  - intros j. rewrite map_map. reflexivity.
  - rewrite map_map. simpl. apply map_id.
  - intros HX. apply Forall_map. eapply Forall_impl; [|exact HX].
    intros r Hr. simpl. now rewrite Hr.
Qed.

Lemma add_constants_intercept_witness :
  well_shaped X_raw /\
  exists X1, add_constants X_raw = Ok X1 /\ well_shaped X1 /\
             intercept_at 0 X1.
Proof.
  assert (H1 : well_shaped X_raw) by (unfold X_raw; shape_tac).
  split; [exact H1|].
  destruct (add_constants_intercept X_raw)
    as (X1 & E & _ & _ & Hint & _ & _ & Hws).
  exists X1. split; [exact E|]. split; [exact (Hws H1) | exact Hint].
Defined.

(** X3. With the column of ones in front, the first coefficient is an
    intercept: the prediction for a row is that coefficient plus the
    prediction of the remaining coefficients on the row of [X]. *)
Theorem add_constants_predict X X1 b0 b :
  add_constants X = Ok X1 ->
  mv X1 (b0 :: b) = map (fun t => b0 + t) (mv X b).
Proof. apply mv_add_constants. Qed.

Lemma add_constants_predict_witness :
  add_constants X_raw
  = Ok (Array2 3 [[1; 1; 4]; [1; 2; 5]; [1; 3; 7]]) /\
  mv (Array2 3 [[1; 1; 4]; [1; 2; 5]; [1; 3; 7]]) [10; 1; 2]
  = map (fun t => 10 + t) (mv X_raw [1; 2]).
Proof.
  assert (H : add_constants X_raw
              = Ok (Array2 3 [[1; 1; 4]; [1; 2; 5]; [1; 3; 7]]))
    by (rewrite add_constants_ok; reflexivity).
  split; [exact H|].
  exact (add_constants_predict X_raw _ 10 [1; 2] H).
Defined.

(** ** The dataset cell followed by the fit *)



(** ** [np.linalg.solve] *)





(** X7. The exceptions of [np.linalg.solve]: [LinAlgError] for a matrix that
    is not square, exactly then and whatever the right-hand side is;
    [ValueError] exactly for a square matrix and a right-hand side of the
    wrong length; and on a square system with a right-hand side of the right
    length nothing but [LinAlgError "Singular matrix"]. *)
Theorem linalg_solve_errors A b :
  (linalg_solve A b = Raise (LinAlgError NotSquare) <-> nrows A <> ncols A) /\
  (linalg_solve A b = Raise ValueError <->
   nrows A = ncols A /\ length b <> nrows A) /\
  (forall e, nrows A = ncols A -> length b = nrows A ->
             linalg_solve A b = Raise e -> e = LinAlgError Singular).
Proof.
  split; [|split].
  - destruct (Nat.eq_dec (nrows A) (ncols A)) as [Hsq|Hsq].
    + split; [|contradiction]. intros H. exfalso.
      destruct (Nat.eq_dec (length b) (nrows A)) as [Hb|Hb].
      * apply linalg_solve_raise_kind in H; [discriminate|assumption..].
      * unfold linalg_solve in H.
        destruct (Nat.eqb_spec (nrows A) (ncols A)); [|contradiction].
        destruct (Nat.eqb_spec (length b) (nrows A)); [contradiction|].
        discriminate.
    + split; [auto|]. intros _. unfold linalg_solve.
      destruct (Nat.eqb_spec (nrows A) (ncols A)); [contradiction|reflexivity].
  - unfold linalg_solve at 1.
    destruct (Nat.eqb_spec (nrows A) (ncols A)) as [Hsq|Hsq]; cbn [negb].
    + destruct (Nat.eqb_spec (length b) (nrows A)) as [Hb|Hb]; cbn [negb].
      * split; [|intros [_ Hn]; contradiction]. intros H. exfalso.
        rewrite <- linalg_solve_square in H by assumption.
        apply linalg_solve_raise_kind in H; [discriminate|assumption..].
      * split; auto.
    + split; [discriminate|]. intros [Hn _]. contradiction.
  - intros e Hsq Hb H. exact (linalg_solve_raise_kind A b e Hsq Hb H).
Qed.

Lemma linalg_solve_errors_witness :
  nrows X_line <> ncols X_line /\
  linalg_solve X_line b_2 = Raise (LinAlgError NotSquare).
Proof.
  assert (H : nrows X_line <> ncols X_line)
    by (cbv [nrows ncols rows X_line length]; lia).
  split; [exact H|].
  exact (proj2 (proj1 (linalg_solve_errors X_line b_2)) H).
Defined.

(** ** [.T] and [@] *)

Lemma map_nth_seq_rows (rs : list vector) :
  map (fun i => nth i rs []) (seq 0 (length rs)) = rs.
Proof.
  induction rs as [|r rs IH]; [reflexivity|].
  cbn [length seq map nth]. rewrite <- seq_shift, map_map.
  cbn [nth]. now rewrite IH.
Qed.

Lemma nth_col i j X : (j < nrows X)%nat ->
  nth j (col i X) 0 = nth i (nth j (rows X) []) 0.
Proof.
  unfold col, nrows. intros Hj.
  rewrite (nth_indep _ 0 (nth i [] 0)) by now rewrite length_map.
  rewrite (map_nth (fun r => nth i r 0)). reflexivity.
Qed.

(** X8. Transposing twice gives the array back, also for the shapes (0, p)
    and (n, 0). *)
Theorem transpose_involutive X :
  well_shaped X -> transpose (transpose X) = X.
Proof.
  intros HX. destruct X as [p rs]. unfold well_shaped in HX.
  cbn [rows ncols] in HX. unfold transpose, nrows. cbn [ncols rows].
  f_equal; [now rewrite length_map, length_seq|].
  etransitivity; [|apply map_nth_seq_rows].
  apply map_ext_in. intros j Hj. apply in_seq in Hj.
  unfold col at 1. cbn [rows]. rewrite map_map.
  assert (Hlen : length (nth j rs []) = p).
  { apply (proj1 (Forall_forall _ _) HX). apply nth_In. lia. }
  etransitivity; [|apply map_nth_seq_id]. rewrite Hlen.
  apply map_ext. intros i.
  apply (nth_col i j (Array2 p rs)). unfold nrows. simpl. lia.
Qed.

Lemma transpose_involutive_witness :
  well_shaped (Array2 3 []) /\
  transpose (transpose (Array2 3 [])) = Array2 3 [].
Proof.
  assert (H : well_shaped (Array2 3 [])) by shape_tac.
  split; [exact H | exact (transpose_involutive (Array2 3 []) H)].
Defined.

Lemma well_shaped_transpose X : well_shaped (transpose X).
Proof.
  unfold well_shaped, transpose. simpl. apply Forall_forall. intros r Hr.
  apply in_map_iff in Hr as (j & <- & _). apply length_col.
Qed.

(** X9. [(A @ B) @ v] is [A @ (B @ v)]: when the first product is defined and
    [v] has as many entries as [B] has columns, all the products involved are
    defined and the two sides are equal. *)
Theorem matmul_matvec_assoc A B C v :
  well_shaped A -> well_shaped B -> matmul A B = Ok C ->
  length v = ncols B ->
  matvec C v = Ok (mv A (mv B v)) /\
  matvec B v = Ok (mv B v) /\
  matvec A (mv B v) = Ok (mv A (mv B v)).
Proof.
  intros HA HB Hm Hv. unfold matmul in Hm.
  destruct (Nat.eqb_spec (ncols A) (nrows B)) as [Hin|]; [|discriminate].
  cbn [negb] in Hm. injection Hm as <-.
  split; [|split].
  - rewrite matvec_ok by exact Hv. f_equal.
    unfold mv at 1 2. cbn [rows]. rewrite map_map.
    apply map_ext_in. intros ra Hra.
    pose proof (proj1 (Forall_forall _ _) HA ra Hra) as Hlen.
    cbv beta in Hlen. unfold mv.
    rewrite <- (adjoint_rows (ncols B) (rows B) HB ra v)
      by (unfold nrows in Hin; lia).
    f_equal. apply map_ext. intros j. apply dot_comm.
  - now apply matvec_ok.
  - apply matvec_ok. now rewrite length_mv.
Qed.

Lemma matmul_matvec_assoc_witness :
  well_shaped (transpose X_line) /\ well_shaped X_line /\
  matmul (transpose X_line) X_line = Ok (gram X_line) /\
  length [0; 2] = ncols X_line /\
  matvec (gram X_line) [0; 2]
  = Ok (mv (transpose X_line) (mv X_line [0; 2])).
Proof.
  pose proof (well_shaped_transpose X_line) as H1.
  assert (H2 : well_shaped X_line) by (unfold X_line; shape_tac).
  pose proof (matmul_transpose X_line) as H3.
  assert (H4 : length [0; 2] = ncols X_line) by reflexivity.
  split; [exact H1|]. split; [exact H2|]. split; [exact H3|].
  split; [exact H4|].
  exact (proj1 (matmul_matvec_assoc _ _ _ _ H1 H2 H3 H4)).
Defined.

(** X10. [X.T @ X] never raises; the product is a square matrix with one row
    and one column per column of [X], it is symmetric, and for a rectangular
    [X] it is positive semi-definite: [v · (X.T @ X) @ v] is the squared
    length of [X @ v]. *)
Theorem gram_symmetric_psd X :
  matmul (transpose X) X = Ok (gram X) /\
  nrows (gram X) = ncols X /\ ncols (gram X) = ncols X /\
  well_shaped (gram X) /\ symmetric (gram X) /\
  (well_shaped X -> forall v,
     dot v (mv (gram X) v) = sum_of_squares (mv X v) /\
     0 <= dot v (mv (gram X) v)).
Proof.
  split; [apply matmul_transpose|]. split; [apply nrows_gram|].
  split; [reflexivity|]. split; [apply well_shaped_gram|]. split.
  - unfold symmetric, transpose. rewrite nrows_gram. unfold gram at 3.
    f_equal. cbn [ncols gram]. apply map_ext_in. intros j Hj.
    apply in_seq in Hj. unfold col at 1. cbn [rows gram]. rewrite map_map.
    apply map_ext_in. intros i Hi. apply in_seq in Hi.
    rewrite nth_map_seq by lia. apply dot_comm.
  - intros HX v.
    assert (E : dot v (mv (gram X) v) = sum_of_squares (mv X v)).
    { rewrite mv_gram by assumption. rewrite dot_comm.
      rewrite adjoint by (try assumption; apply length_mv). reflexivity. }
    split; [exact E|]. rewrite E. apply sum_of_squares_nonneg.
Qed.

Lemma gram_symmetric_psd_witness :
  well_shaped X_raw /\
  dot [1; -1] (mv (gram X_raw) [1; -1]) = sum_of_squares (mv X_raw [1; -1]).
Proof.
  assert (H : well_shaped X_raw) by (unfold X_raw; shape_tac).
  split; [exact H|].
  exact (proj1 (proj2 (proj2 (proj2 (proj2 (proj2
           (gram_symmetric_psd X_raw))))) H [1; -1])).
Defined.

(** ** [pearsonr] *)








Lemma pearson_r_sym x y : pearson_r x y = pearson_r y x.
Proof.
  unfold pearson_r.
  rewrite (Rmult_comm (sqrt (sum_of_squares (center x)))).
  now rewrite (dot_comm (center x)).
Qed.


(** X11. The correlation coefficient does not depend on the order of the two
    samples. *)
Theorem pearsonr_symmetric x y : pearsonr x y = pearsonr y x.
Proof.
  destruct (Nat.eq_dec (length x) (length y)) as [H|H].
  - rewrite !pearsonr_pearson_r by congruence.
    f_equal. apply pearson_r_sym.
  - destruct (Nat.eq_dec (length x) 1) as [Hx|Hx];
      [now rewrite !pearsonr_one_entry by auto|].
    destruct (Nat.eq_dec (length y) 1) as [Hy|Hy];
      [now rewrite !pearsonr_one_entry by auto|].
    rewrite !pearsonr_mismatch by congruence. reflexivity.
Qed.



(** X13. The outcomes of [pearsonr]: it raises exactly when the two samples
    have different lengths and neither has exactly one entry, and then a
    [ValueError]; a sample of one entry never raises and gives nan, whatever
    the length of the other; and a number it returns lies between -1 and
    1. *)
Theorem pearsonr_outcomes x y :
  (forall e, pearsonr x y = Raise e <->
             e = ValueError /\ length x <> length y /\
             length x <> 1%nat /\ length y <> 1%nat) /\
  (length x = 1%nat \/ length y = 1%nat -> pearsonr x y = Ok None) /\
  (forall r, pearsonr x y = Ok (Some r) ->
             length x = length y /\ -1 <= r <= 1).
Proof.
  split; [|split].
  - intros e. split; [apply pearsonr_raise|].
    intros (-> & H & Hx & Hy). now apply pearsonr_mismatch.
  - apply pearsonr_one_entry.
  - intros r H.
    destruct (Nat.eq_dec (length x) (length y)) as [E|E].
    + split; [exact E|]. rewrite pearsonr_pearson_r in H by exact E.
      injection H as Hr. pose proof (pearson_r_square_le_1 _ _ _ Hr). nra.
    + exfalso.
      destruct (Nat.eq_dec (length x) 1) as [Ex|Ex];
        [rewrite pearsonr_one_entry in H by (now left); discriminate|].
      destruct (Nat.eq_dec (length y) 1) as [Ey|Ey];
        [rewrite pearsonr_one_entry in H by (now right); discriminate|].
      rewrite pearsonr_mismatch in H by assumption. discriminate.
Qed.

Lemma pearsonr_outcomes_witness :
  (length [5] = 1%nat \/ length y_raw = 1%nat) /\
  pearsonr [5] y_raw = Ok None.
Proof.
  assert (H : length [5] = 1%nat \/ length y_raw = 1%nat)
    by (left; reflexivity).
  split; [exact H|].
  exact (proj1 (proj2 (pearsonr_outcomes [5] y_raw)) H).
Defined.

(** ** The two statements: outcomes and invariances *)

(** X14. The statistic the notebook reports, when it is a number, lies
    between 0 and 1. *)
Theorem statistic_unit_interval X y beta s :
  fit_ols X y = Ok (beta, Some s) -> 0 <= s <= 1.
Proof.
  intros H. apply fit_ols_inv in H as [_ Hs].
  destruct (pearson_r (mv X beta) y) as [r|] eqn:Hr; [|discriminate].
  cbn [square] in Hs. injection Hs as ->.
  pose proof (pearson_r_square_le_1 _ _ _ Hr). nra.
Qed.

Lemma statistic_unit_interval_witness :
  fit_ols X_origin y_origin = Ok ([9 / 14], Some (3 / 4)) /\
  0 <= 3 / 4 <= 1.
Proof.
  split; [exact fit_ols_origin|].
  exact (statistic_unit_interval _ _ _ _ fit_ols_origin).
Defined.



(** X16. The exceptions of the two statements: [ValueError] exactly when [y]
    has not one entry per row of [X]; otherwise nothing but [LinAlgError
    "Singular matrix"] (the matrix handed to [np.linalg.solve] is always
    square and the right-hand side always fits); and the second statement
    never raises once the first has returned. *)
Theorem fit_ols_outcomes X y :
  (fit_ols X y = Raise ValueError <-> length y <> nrows X) /\
  (forall e, fit_ols X y = Raise e ->
             e = ValueError \/ e = LinAlgError Singular) /\
  (forall beta, normal_equation X y = Ok beta ->
                exists s, fit_statistic X beta y = Ok s /\
                          fit_ols X y = Ok (beta, s)).
Proof.
  assert (Hkind : forall e, length y = nrows X -> fit_ols X y = Raise e ->
                            e = LinAlgError Singular).
  { intros e Hy H. apply fit_ols_raise in H. unfold normal_equation in H.
    rewrite normal_equation_with_ok in H by assumption.
    apply linalg_solve_raise_kind in H; [assumption | exact (nrows_gram X) |].
    now rewrite length_mv_transpose, nrows_gram. }
  split; [|split].
  - split.
    + intros H Hy. apply Hkind in H; [discriminate | assumption].
    + intros Hy. unfold fit_ols, fit_ols_with.
      now rewrite normal_equation_with_mismatch.
  - intros e H. destruct (Nat.eq_dec (length y) (nrows X)) as [Hy|Hy].
    + right. now apply Hkind.
    + left. unfold fit_ols, fit_ols_with in H.
      rewrite normal_equation_with_mismatch in H by assumption.
      now injection H.
  - intros beta E.
    destruct (normal_equation_sound _ _ _ E) as (Hy & Hb & _).
    exists (square (pearson_r (mv X beta) y)).
    split; [now apply fit_statistic_ok | now apply fit_ols_of_normal_equation].
Qed.

Lemma fit_ols_outcomes_witness :
  length y_9 <> nrows X_10x3 /\ fit_ols X_10x3 y_9 = Raise ValueError.
Proof.
  assert (H : length y_9 <> nrows X_10x3)
    by (cbv [length repeat nrows rows X_10x3 y_9]; lia).
  split; [exact H|].
  exact (proj2 (proj1 (fit_ols_outcomes X_10x3 y_9)) H).
Defined.









(** ** The version cell *)

Lemma report_all_installed installed pkgs : forall printed,
  (forall pkg, In pkg pkgs -> installed !! pkg <> None) ->
  Versions.report installed pkgs printed
  = (printed ++ map (fun pkg => Versions.line pkg
                                  (default ""%string (installed !! pkg)))
                    pkgs,
     Versions.Finished).
Proof.
  induction pkgs as [|pkg rest IH]; intros printed Hall.
  - simpl. now rewrite app_nil_r.
  - cbn [Versions.report map].
    destruct (installed !! pkg) as [version|] eqn:E.
    + rewrite IH by (intros q Hq; apply Hall; now right).
      cbn [default]. now rewrite <- app_assoc.
    + exfalso. apply (Hall pkg); [now left | exact E].
Qed.

Lemma report_first_missing installed before missing after : forall printed,
  (forall pkg, In pkg before -> installed !! pkg <> None) ->
  installed !! missing = None ->
  Versions.report installed (before ++ missing :: after) printed
  = (printed ++ map (fun pkg => Versions.line pkg
                                  (default ""%string (installed !! pkg)))
                    before,
     Versions.DistributionNotFound missing).
Proof.
  induction before as [|pkg rest IH]; intros printed Hall Hmiss.
  - simpl. rewrite Hmiss. now rewrite app_nil_r.
  - cbn [app Versions.report map].
    destruct (installed !! pkg) as [version|] eqn:E.
    + rewrite IH by (try assumption; intros q Hq; apply Hall; now right).
      cbn [default]. now rewrite <- app_assoc.
    + exfalso. apply (Hall pkg); [now left | exact E].
Qed.

(** X19. The version cell prints one line per package, in the order of the
    list, when all five are installed; when one is missing it has printed the
    lines of the packages before it, and only those, when
    [DistributionNotFound] stops it. *)
Theorem version_cell_outcomes installed :
  ((forall pkg, In pkg Versions.packages -> installed !! pkg <> None) ->
   Versions.version_cell installed
   = (map (fun pkg => Versions.line pkg
                        (default ""%string (installed !! pkg)))
          Versions.packages,
      Versions.Finished)) /\
  (forall before missing after,
     Versions.packages = before ++ missing :: after ->
     (forall pkg, In pkg before -> installed !! pkg <> None) ->
     installed !! missing = None ->
     Versions.version_cell installed
     = (map (fun pkg => Versions.line pkg
                          (default ""%string (installed !! pkg)))
            before,
        Versions.DistributionNotFound missing)).
Proof.
  unfold Versions.version_cell. split.
  - intros Hall. now rewrite report_all_installed.
  - intros before missing after -> Hall Hmiss.
    now rewrite report_first_missing.
Qed.

Lemma version_cell_outcomes_witness :
  Versions.packages
  = (["numpy"; "scipy"] ++ "pandas" :: ["statsmodels"; "scikit-learn"])%list
  /\
  delete "pandas" installed_2019 !! "pandas" = None /\
  Versions.version_cell (delete "pandas" installed_2019)
  = (["numpy version = 1.16.3"; "scipy version = 1.2.1"],
     Versions.DistributionNotFound "pandas").
Proof.
  assert (H1 : Versions.packages
               = (["numpy"; "scipy"] ++ "pandas"
                    :: ["statsmodels"; "scikit-learn"])%list)
    by reflexivity.
  assert (H2 : delete "pandas" installed_2019 !! "pandas" = None)
    by apply lookup_delete_eq.
  split; [exact H1|]. split; [exact H2|].
  refine (proj2 (version_cell_outcomes (delete "pandas" installed_2019))
            _ _ _ H1 _ H2).
  intros pkg [<- | [<- | []]]; vm_compute; discriminate.
Defined.

(** ** More on the second statement *)



(** X21. The second statement on its own, with whatever [coefs] holds: it
    raises exactly when [coefs] has not one entry per column of [X], or [y]
    has neither one entry per row of [X] nor a single entry (nor [X] a
    single row), and then a [ValueError]; a [y] of a single entry that does
    not fit is broadcast and the statistic is nan; and a statistic that is a
    number lies between 0 and 1. *)
Theorem fit_statistic_outcomes X coefs y :
  (forall e, fit_statistic X coefs y = Raise e <->
     e = ValueError /\
     (length coefs <> ncols X \/
      (length y <> nrows X /\ length y <> 1%nat /\ nrows X <> 1%nat))) /\
  (length coefs = ncols X -> length y = 1%nat \/ nrows X = 1%nat ->
   fit_statistic X coefs y = Ok None) /\
  (forall v, fit_statistic X coefs y = Ok (Some v) -> 0 <= v <= 1).
Proof.
  destruct (Nat.eq_dec (length coefs) (ncols X)) as [Hc|Hc].
  - assert (E : fit_statistic X coefs y
                = let! r := pearsonr (mv X coefs) y in Ok (square r)).
    { unfold fit_statistic. now rewrite matvec_ok by assumption. }
    rewrite E. clear E. split; [|split].
    + intros e. split.
      * intros H. destruct (pearsonr (mv X coefs) y) as [r|e'] eqn:P;
          cbn [rbind] in H; [discriminate|]. injection H as <-.
        apply pearsonr_raise in P as (-> & H1 & H2 & H3).
        rewrite length_mv in H1, H2. split; [reflexivity|]. right. auto.
      * intros [-> [H|(H1 & H2 & H3)]]; [contradiction|].
        rewrite pearsonr_mismatch by (rewrite ?length_mv; auto).
        reflexivity.
    + intros _ H. rewrite pearsonr_one_entry by (rewrite length_mv; tauto).
      reflexivity.
    + intros v H. destruct (pearsonr (mv X coefs) y) as [[r|]|e'] eqn:P;
        cbn [rbind square] in H; try discriminate.
      injection H as <-.
      assert (Hr : -1 <= r <= 1).
      { destruct (Nat.eq_dec (length (mv X coefs)) (length y)) as [L|L].
        - rewrite pearsonr_pearson_r in P by exact L. injection P as Hr.
          pose proof (pearson_r_square_le_1 _ _ _ Hr). nra.
        - exfalso.
          destruct (Nat.eq_dec (length (mv X coefs)) 1) as [Ex|Ex];
            [rewrite pearsonr_one_entry in P by (now left); discriminate|].
          destruct (Nat.eq_dec (length y) 1) as [Ey|Ey];
            [rewrite pearsonr_one_entry in P by (now right); discriminate|].
          rewrite pearsonr_mismatch in P by assumption. discriminate. }
      nra.
  - assert (E : fit_statistic X coefs y = Raise ValueError).
    { unfold fit_statistic. now rewrite matvec_mismatch. }
    rewrite E. split; [|split].
    + intros e. split.
      * intros H. injection H as <-. auto.
      * intros [-> _]. reflexivity.
    + intros H. contradiction.
    + discriminate.
Qed.

Lemma fit_statistic_outcomes_witness :
  length [0; 2] = ncols X_line /\
  (length [7] = 1%nat \/ nrows X_line = 1%nat) /\
  fit_statistic X_line [0; 2] [7] = Ok None.
Proof.
  assert (H1 : length [0; 2] = ncols X_line) by reflexivity.
  assert (H2 : length [7] = 1%nat \/ nrows X_line = 1%nat)
    by (left; reflexivity).
  split; [exact H1|]. split; [exact H2|].
  exact (proj1 (proj2 (fit_statistic_outcomes X_line [0; 2] [7])) H1 H2).
Defined.

(** ** Shifting the response *)




